(** * Argon2-Secure-KDF: salt expansion and key derivation

    A shallow embedding of [argon2_secure_kdf.py].  The module has two
    functions: [randomize_salt], which expands a caller-supplied seed with
    HMAC-SHA256 keyed by the SHA-256 digest of the same seed, and
    [derive_key], which checks the salt and hands everything else to
    [argon2.low_level.hash_secret_raw].

    SHA-256 (FIPS 180-4) and HMAC (RFC 2104, as [hmac.py] builds it from two
    hash objects) are written out and executable.  The Argon2 primitive is
    a parameter of the development. *)

From Stdlib Require Import String Init.Byte Strings.Byte.
From Stdlib Require Import ZArith NArith Bool List Lia.
Import ListNotations.
Local Open Scope Z_scope.

(** ** Bytes *)

(** A Python [bytes] value. *)
Definition bytes := list byte.

Definition byte_to_Z (b : byte) : Z := Z.of_N (Byte.to_N b).

(** The byte holding the low eight bits of [z]. *)
Definition byte_of_Z (z : Z) : byte :=
  match Byte.of_N (Z.to_N (z mod 256)) with
  | Some b => b
  | None => x00
  end.

(** A bytes literal such as [b"User-ID-2"]. *)
Definition bytes_of_string (s : string) : bytes := list_byte_of_string s.

Definition xor_byte (x y : byte) : byte :=
  byte_of_Z (Z.lxor (byte_to_Z x) (byte_to_Z y)).

(** ** SHA-256, the function behind [hashlib.sha256] *)

Module SHA256.

(** 32-bit words are integers in [0, 2^32); every operation that can leave
    the range is followed by [wrap]. *)
Definition wrap (z : Z) : Z := z mod 2 ^ 32.

Definition add (x y : Z) : Z := wrap (x + y).

Definition rotr (n x : Z) : Z :=
  Z.lor (Z.shiftr x n) (wrap (Z.shiftl x (32 - n))).

Definition shr (n x : Z) : Z := Z.shiftr x n.

Definition not32 (x : Z) : Z := Z.lxor x (2 ^ 32 - 1).

Definition Ch (x y z : Z) : Z :=
  Z.lxor (Z.land x y) (Z.land (not32 x) z).

Definition Maj (x y z : Z) : Z :=
  Z.lxor (Z.lxor (Z.land x y) (Z.land x z)) (Z.land y z).

Definition bsig0 (x : Z) : Z :=
  Z.lxor (Z.lxor (rotr 2 x) (rotr 13 x)) (rotr 22 x).

Definition bsig1 (x : Z) : Z :=
  Z.lxor (Z.lxor (rotr 6 x) (rotr 11 x)) (rotr 25 x).

Definition ssig0 (x : Z) : Z :=
  Z.lxor (Z.lxor (rotr 7 x) (rotr 18 x)) (shr 3 x).

Definition ssig1 (x : Z) : Z :=
  Z.lxor (Z.lxor (rotr 17 x) (rotr 19 x)) (shr 10 x).

(** *** Constants

    The round constants are the first 32 fractional bits of the cube roots
    of the first 64 primes, the initial state the first 32 fractional bits
    of the square roots of the first 8.  They are computed here from that
    description. *)

Definition has_divisor (n : Z) (ps : list Z) : bool :=
  existsb (fun p => n mod p =? 0) ps.

(** The first [count] primes, by trial division against those found so
    far ([found] is kept in decreasing order). *)
Fixpoint primes_from (fuel : nat) (count : nat) (n : Z) (found : list Z)
  : list Z :=
  match fuel, count with
  | O, _ | _, O => rev found
  | S fuel', S count' =>
      if has_divisor n found
      then primes_from fuel' count (n + 1) found
      else primes_from fuel' count' (n + 1) (n :: found)
  end.

Definition first_primes (count : nat) : list Z :=
  primes_from 400 count 2 [].

(** Largest [r] below [2^(bits)] above [acc] with [r^3 <= n], one bit at a
    time from the top. *)
Fixpoint cube_root_bits (bits : nat) (n acc : Z) : Z :=
  match bits with
  | O => acc
  | S bits' =>
      let cand := acc + 2 ^ Z.of_nat bits' in
      if cand * cand * cand <=? n
      then cube_root_bits bits' n cand
      else cube_root_bits bits' n acc
  end.

Definition cube_root (n : Z) : Z := cube_root_bits 40 n 0.

Definition K : list Z :=
  Eval vm_compute in
    map (fun p => wrap (cube_root (p * 2 ^ 96))) (first_primes 64).

Definition H0 : list Z :=
  Eval vm_compute in
    map (fun p => wrap (Z.sqrt (p * 2 ^ 64))) (first_primes 8).

(** *** Padding and parsing *)

(** [n] as [len] bytes, most significant first. *)
Fixpoint be_bytes (len : nat) (n : Z) : bytes :=
  match len with
  | O => []
  | S len' => byte_of_Z (Z.shiftr n (8 * Z.of_nat len')) :: be_bytes len' n
  end.

Definition be_word (bs : bytes) : Z :=
  fold_left (fun acc b => acc * 256 + byte_to_Z b) bs 0.

(** The message, a single one bit, zero bits up to 56 modulo 64 bytes, then
    the bit length in 64 bits. *)
Definition pad (msg : bytes) : bytes :=
  let len := Z.of_nat (length msg) in
  msg ++ [x80] ++ repeat x00 (Z.to_nat ((55 - len) mod 64))
      ++ be_bytes 8 (8 * len).

(** [n] consecutive chunks of [size] items. *)
Fixpoint chunks {A} (size n : nat) (l : list A) : list (list A) :=
  match n with
  | O => []
  | S n' => firstn size l :: chunks size n' (skipn size l)
  end.

Definition blocks (padded : bytes) : list bytes :=
  chunks 64 (length padded / 64) padded.

Definition block_words (block : bytes) : list Z :=
  map be_word (chunks 4 16 block).

(** *** Message schedule

    [window] holds W(t) .. W(t+15); each step emits W(t) and appends
    W(t+16). *)
Fixpoint schedule_from (n : nat) (window : list Z) : list Z :=
  match n with
  | O => []
  | S n' =>
      let w i := nth i window 0 in
      let next := add (add (add (ssig1 (w 14%nat)) (w 9%nat))
                           (ssig0 (w 1%nat))) (w 0%nat) in
      w 0%nat :: schedule_from n' (tl window ++ [next])
  end.

Definition schedule (block : bytes) : list Z :=
  schedule_from 64 (block_words block).

(** *** Compression *)

Record state : Type := State {
  va : Z; vb : Z; vc : Z; vd : Z; ve : Z; vf : Z; vg : Z; vh : Z
}.

Definition initial : state :=
  let h i := nth i H0 0 in
  State (h 0%nat) (h 1%nat) (h 2%nat) (h 3%nat)
        (h 4%nat) (h 5%nat) (h 6%nat) (h 7%nat).

Definition round (s : state) (kw : Z * Z) : state :=
  let (k, w) := kw in
  let t1 := add (add (add (add (vh s) (bsig1 (ve s)))
                          (Ch (ve s) (vf s) (vg s))) k) w in
  let t2 := add (bsig0 (va s)) (Maj (va s) (vb s) (vc s)) in
  State (add t1 t2) (va s) (vb s) (vc s)
        (add (vd s) t1) (ve s) (vf s) (vg s).

Definition add_state (s t : state) : state :=
  State (add (va s) (va t)) (add (vb s) (vb t))
        (add (vc s) (vc t)) (add (vd s) (vd t))
        (add (ve s) (ve t)) (add (vf s) (vf t))
        (add (vg s) (vg t)) (add (vh s) (vh t)).

Definition compress (s : state) (block : bytes) : state :=
  add_state s (fold_left round (combine K (schedule block)) s).

Definition output (s : state) : bytes :=
  be_bytes 4 (va s) ++ be_bytes 4 (vb s) ++ be_bytes 4 (vc s)
    ++ be_bytes 4 (vd s) ++ be_bytes 4 (ve s) ++ be_bytes 4 (vf s)
    ++ be_bytes 4 (vg s) ++ be_bytes 4 (vh s).

Definition hash (msg : bytes) : bytes :=
  output (fold_left compress (blocks (pad msg)) initial).

Definition digest_size : nat := 32.
Definition block_size : nat := 64.

End SHA256.

(** ** [hashlib] and [hmac]

    A hash object is the data fed to it so far; [digest] hashes that data and
    leaves the object as it was. *)

Module hashlib.

Record hash_object : Type := HashObject { fed : bytes }.

(** [hashlib.sha256(data)]. *)
Definition sha256 (data : bytes) : hash_object := HashObject data.

Definition update (h : hash_object) (data : bytes) : hash_object :=
  HashObject (fed h ++ data).

Definition copy (h : hash_object) : hash_object := h.

Definition digest (h : hash_object) : bytes := SHA256.hash (fed h).

Definition digest_size : nat := SHA256.digest_size.
Definition block_size : nat := SHA256.block_size.

End hashlib.

Module hmac.

(** [bytes.ljust(width, fill)]. *)
Definition ljust (bs : bytes) (width : nat) (fill : byte) : bytes :=
  bs ++ repeat fill (width - length bs).

(** [bytes.translate] with the table that xors every byte with [pad]. *)
Definition translate (pad : byte) (bs : bytes) : bytes :=
  map (fun b => xor_byte b pad) bs.

Definition trans_5C : byte := x5c.
Definition trans_36 : byte := x36.

Record HMAC : Type := MkHMAC { inner : hashlib.hash_object;
                              outer : hashlib.hash_object }.

(** [hmac.new(key, msg, hashlib.sha256)]: a key longer than a block is
    hashed first, the key is padded with zero bytes to a block, and the two
    hash objects are started on the padded key xored with 0x5C and 0x36;
    [msg] then goes to the inner one. *)
Definition new (key msg : bytes) : HMAC :=
  let key := if (hashlib.block_size <? length key)%nat
             then hashlib.digest (hashlib.sha256 key)
             else key in
  let key := ljust key hashlib.block_size x00 in
  let outer := hashlib.update (hashlib.sha256 []) (translate trans_5C key) in
  let inner := hashlib.update (hashlib.sha256 []) (translate trans_36 key) in
  MkHMAC (hashlib.update inner msg) outer.

(** [HMAC.digest()]: the outer object, copied, is fed the inner digest. *)
Definition digest (h : HMAC) : bytes :=
  hashlib.digest
    (hashlib.update (hashlib.copy (outer h)) (hashlib.digest (inner h))).

End hmac.

(** ** Text *)

(** A Python [str]: its code points.  A code point is at most 0x10FFFF;
    larger numbers stand for no character and are refused by the encoder
    like the surrogates. *)
Definition str := list N.

(** A [str] literal of ASCII characters. *)
Definition str_of_string (s : string) : str :=
  map Byte.to_N (list_byte_of_string s).

(** A code point that UTF-8 can encode: any but the surrogates
    U+D800..U+DFFF. *)
Definition scalar_value (c : N) : Prop :=
  (c < 0xD800 \/ 0xDFFF < c <= 0x10FFFF)%N.

(** The UTF-8 bytes of one code point, [None] where the strict codec
    raises. *)
Definition encode_char (c : N) : option bytes :=
  let ch := Z.of_N c in
  if ch <? 0x80 then
    Some [byte_of_Z ch]
  else if ch <? 0x800 then
    Some [byte_of_Z (Z.lor 0xC0 (Z.shiftr ch 6));
          byte_of_Z (Z.lor 0x80 (Z.land ch 0x3F))]
  else if (0xD800 <=? ch) && (ch <=? 0xDFFF) then
    None
  else if ch <? 0x10000 then
    Some [byte_of_Z (Z.lor 0xE0 (Z.shiftr ch 12));
          byte_of_Z (Z.lor 0x80 (Z.land (Z.shiftr ch 6) 0x3F));
          byte_of_Z (Z.lor 0x80 (Z.land ch 0x3F))]
  else if ch <=? 0x10FFFF then
    Some [byte_of_Z (Z.lor 0xF0 (Z.shiftr ch 18));
          byte_of_Z (Z.lor 0x80 (Z.land (Z.shiftr ch 12) 0x3F));
          byte_of_Z (Z.lor 0x80 (Z.land (Z.shiftr ch 6) 0x3F));
          byte_of_Z (Z.lor 0x80 (Z.land ch 0x3F))]
  else
    None.

(** ** The Argon2 binding *)

(** [argon2.low_level.Type]: the Argon2 variants. *)
Module Type_.
Inductive t : Set := D | I | ID.

Definition value (v : t) : Z :=
  match v with D => 0 | I => 1 | ID => 2 end.
End Type_.

(** Modelled from the spec: the failure classes of the external memory-hard
    primitive (section 7); the exception classes of the argon2 package are
    not part of this repository. *)
Inductive primitive_error : Set :=
| InvalidParameterError
| ResourceExhaustedError.

(** Modelled from the spec: a primitive with the capability contract of
    sections 4.2 and 6, standing in for [hash_secret_raw] wherever a concrete
    one is needed.  A cost parameter that is not positive is refused with
    [InvalidParameterError]; otherwise [hash_len] bytes come back.  The spec
    fixes their number and that they depend on the arguments alone, not their
    values: here they are HMAC-SHA256 blocks keyed with the salt. *)
Definition model_block (secret salt : bytes)
    (time_cost memory_cost parallelism hash_len : Z) (type : Type_.t)
    (counter : nat) : bytes :=
  hmac.digest
    (hmac.new salt
       (secret ++ SHA256.be_bytes 4 time_cost ++ SHA256.be_bytes 4 memory_cost
          ++ SHA256.be_bytes 4 parallelism ++ SHA256.be_bytes 4 hash_len
          ++ SHA256.be_bytes 1 (Type_.value type)
          ++ SHA256.be_bytes 4 (Z.of_nat counter))).

(** The first [hash_len] bytes of the blocks numbered 0, 1, ... *)
Definition model_output (secret salt : bytes)
    (time_cost memory_cost parallelism hash_len : Z) (type : Type_.t)
  : bytes :=
  let n := Z.to_nat hash_len in
  firstn n
    (flat_map
       (model_block secret salt time_cost memory_cost parallelism hash_len
          type)
       (seq 0 (S (n / 32)))).

(** The stand-in itself: the parameter check, then the bytes. *)
Definition model_hash_secret_raw (secret salt : bytes)
    (time_cost memory_cost parallelism hash_len : Z) (type : Type_.t)
  : primitive_error + bytes :=
  if (time_cost <=? 0) || (memory_cost <=? 0) || (parallelism <=? 0)
     || (hash_len <=? 0)
  then inl InvalidParameterError
  else inr (model_output secret salt time_cost memory_cost parallelism
              hash_len type).

(** ** The construction of spec section 4.1, in the spec's words *)

(** HMAC over SHA-256 as RFC 2104 writes it:
    H((K0 xor opad) || H((K0 xor ipad) || text)), where K0 is the key brought
    to the block length. *)
Definition HMAC_SHA256 (key text : bytes) : bytes :=
  let k0 := if (64 <? length key)%nat then SHA256.hash key else key in
  let k0 := k0 ++ repeat x00 (64 - length k0) in
  let ipad := map (fun b => xor_byte b x36) k0 in
  let opad := map (fun b => xor_byte b x5c) k0 in
  SHA256.hash (opad ++ SHA256.hash (ipad ++ text)).

(** Step 1 derives the key from the seed, step 2 evaluates the keyed function
    over the seed itself, step 3 outputs the whole digest. *)
Definition spec_expand (Hash : bytes -> bytes)
    (KeyedPRF : bytes -> bytes -> bytes) (seed : bytes) : bytes :=
  let k := Hash seed in
  KeyedPRF k seed.

(** ** The module *)

(** Python's test [not b] on a bytes value. *)
Definition falsy (b : bytes) : bool :=
  match b with
  | [] => true
  | _ :: _ => false
  end.

Section Functions.

(** What the external primitive raises when it fails. *)
Context {E : Type}.

(** The exceptions that can leave the two functions: [ValueError] is raised
    by the module itself, [UnicodeEncodeError] by [str.encode] (with the
    index of the offending character), and whatever [hash_secret_raw]
    raises passes through unchanged. *)
Inductive exn : Type :=
| ValueError (msg : string)
| UnicodeEncodeError (start : nat)
| PrimitiveError (e : E).

Inductive result (A : Type) : Type :=
| Ok (a : A)
| Raise (e : exn).

Arguments Ok {A} a.
Arguments Raise {A} e.

Definition bind {A B} (r : result A) (k : A -> result B) : result B :=
  match r with
  | Ok a => k a
  | Raise e => Raise e
  end.

Local Notation "x <- r ;; k" := (bind r (fun x => k))
  (at level 61, r at next level, right associativity).

(** [s.encode('utf-8')] with the default strict error handling; [start]
    is the index of the first character of [s] in the whole string. *)
Fixpoint encode_from (start : nat) (s : str) : result bytes :=
  match s with
  | [] => Ok []
  | c :: rest =>
      match encode_char c with
      | None => Raise (UnicodeEncodeError start)
      | Some bs =>
          tail <- encode_from (S start) rest ;;
          Ok (bs ++ tail)
      end
  end.

Definition encode_utf8 (s : str) : result bytes := encode_from 0 s.

Definition randomize_salt (user_salt : bytes) : result bytes :=
  if falsy user_salt then
    Raise (ValueError "User-provided salt must not be empty.")
  else
    let prf :=
      hmac.new (hashlib.digest (hashlib.sha256 user_salt)) user_salt in
    Ok (hmac.digest prf).

(** A run of [randomize_salt], statement by statement. *)
Inductive randomize_salt_run (user_salt : bytes) : result bytes -> Prop :=
| expand_empty :
    falsy user_salt = true ->
    randomize_salt_run user_salt
      (Raise (ValueError "User-provided salt must not be empty."))
| expand_digest key prf :
    falsy user_salt = false ->
    key = hashlib.digest (hashlib.sha256 user_salt) ->
    prf = hmac.new key user_salt ->
    randomize_salt_run user_salt (Ok (hmac.digest prf)).

(** The signature of [hash_secret_raw(secret, salt, time_cost, memory_cost,
    parallelism, hash_len, type)]: the raw hash, or the exception. *)
Definition primitive : Type :=
  bytes -> bytes -> Z -> Z -> Z -> Z -> Type_.t -> E + bytes.

(** The outcome of a call of the primitive, seen from the caller. *)
Definition returned (r : E + bytes) : result bytes :=
  match r with
  | inl e => Raise (PrimitiveError e)
  | inr key => Ok key
  end.

Definition derive_key (hash_secret_raw : primitive)
    (password : str) (salt : bytes)
    (time_cost memory_cost parallelism hash_len : Z) : result bytes :=
  if falsy salt then
    Raise (ValueError "Salt must be provided and cannot be empty.")
  else
    secret <- encode_utf8 password ;;
    derived_key <- returned (hash_secret_raw secret salt time_cost
                               memory_cost parallelism hash_len Type_.ID) ;;
    Ok derived_key.

(** The defaults in the signature of [derive_key]. *)
Definition default_time_cost : Z := 2.
Definition default_memory_cost : Z := 102400.
Definition default_parallelism : Z := 8.
Definition default_hash_len : Z := 32.

Definition or_default (arg : option Z) (default : Z) : Z :=
  match arg with
  | Some v => v
  | None => default
  end.

(** A call [derive_key(password, salt, ...)] in which each of the four
    keyword parameters is given or left out. *)
Definition call_derive_key (hash_secret_raw : primitive)
    (password : str) (salt : bytes)
    (time_cost memory_cost parallelism hash_len : option Z) : result bytes :=
  derive_key hash_secret_raw password salt
    (or_default time_cost default_time_cost)
    (or_default memory_cost default_memory_cost)
    (or_default parallelism default_parallelism)
    (or_default hash_len default_hash_len).

(** *** Runs

    To speak of two calls, the primitive is taken as a relation between
    its arguments and the outcomes a call may have, and a run of
    [derive_key] follows the function body statement by statement. *)
Definition behaviour : Type :=
  bytes -> bytes -> Z -> Z -> Z -> Z -> Type_.t -> E + bytes -> Prop.

Inductive derive_key_run (prim : behaviour) (password : str) (salt : bytes)
    (time_cost memory_cost parallelism hash_len : Z)
  : result bytes -> Prop :=
| run_empty_salt :
    falsy salt = true ->
    derive_key_run prim password salt time_cost memory_cost parallelism
      hash_len
      (Raise (ValueError "Salt must be provided and cannot be empty."))
| run_encode_error start :
    falsy salt = false ->
    encode_utf8 password = Raise (UnicodeEncodeError start) ->
    derive_key_run prim password salt time_cost memory_cost parallelism
      hash_len (Raise (UnicodeEncodeError start))
| run_delegate secret outcome :
    falsy salt = false ->
    encode_utf8 password = Ok secret ->
    prim secret salt time_cost memory_cost parallelism hash_len Type_.ID
      outcome ->
    derive_key_run prim password salt time_cost memory_cost parallelism
      hash_len (returned outcome).

(** The runs of a primitive that is a function of its arguments. *)
Definition graph (f : primitive) : behaviour :=
  fun secret salt t m p l ty outcome => f secret salt t m p l ty = outcome.

(** Two calls with the same arguments have the same outcome. *)
Definition deterministic (prim : behaviour) : Prop :=
  forall secret salt t m p l ty o1 o2,
    prim secret salt t m p l ty o1 ->
    prim secret salt t m p l ty o2 ->
    o1 = o2.

End Functions.

Arguments exn E : clear implicits.
Arguments result E A : clear implicits.
Arguments primitive E : clear implicits.
Arguments behaviour E : clear implicits.
Arguments Ok {E A} a.
Arguments Raise {E A} e.

(** ** The contract of the primitive *)

(** Modelled from the spec: section 4.2 wants every field of the parameters
    ([time_cost], [memory_cost], [parallelism], [hash_len]) positive, has
    derivation fail with InvalidParameterError otherwise (sections 4.2 and
    8), and leaves the check to the underlying primitive.  [derive_key] has
    no parameter check of its own, so the requirement is stated of
    [hash_secret_raw], whose code is not part of this repository: a call in
    which one of the four is not positive is refused, with an exception of
    that class.  [invalid] tells which of the primitive's exceptions are of
    the class. *)
Definition rejects_nonpositive_cost {E} (invalid : E -> Prop)
    (prim : primitive E) : Prop :=
  forall secret salt time_cost memory_cost parallelism hash_len type,
    time_cost <= 0 \/ memory_cost <= 0 \/ parallelism <= 0
    \/ hash_len <= 0 ->
    exists e,
      prim secret salt time_cost memory_cost parallelism hash_len type = inl e
      /\ invalid e.

(** Modelled from the spec: what the primitive returns has [hash_len] bytes
    (sections 3 and 6). *)
Definition returns_hash_len {E} (prim : primitive E) : Prop :=
  forall secret salt time_cost memory_cost parallelism hash_len type key,
    prim secret salt time_cost memory_cost parallelism hash_len type = inr key ->
    Z.of_nat (length key) = hash_len.

(** ** The example at the end of the module

    The script derives a key for ["your_password_here"] from the seed
    [b"User-ID-2"] with [time_cost=5], [memory_cost=65536], [parallelism=4]
    and [hash_len=32]. *)
Module Usage.

Definition password : str := str_of_string "your_password_here".

Definition user_salt : bytes := bytes_of_string "User-ID-2".

Definition randomized_salt {E} : result E bytes := randomize_salt user_salt.

Definition derived_key {E} (hash_secret_raw : primitive E)
  : result E bytes :=
  bind randomized_salt
    (fun salt => derive_key hash_secret_raw password salt 5 65536 4 32).

End Usage.

Definition hex_digit (z : Z) : string :=
  String.substring (Z.to_nat z) 1 "0123456789abcdef".

(** [bytes.hex()]. *)
Definition hex (bs : bytes) : string :=
  String.concat EmptyString
    (map (fun b => (hex_digit (byte_to_Z b / 16) ++ hex_digit (byte_to_Z b mod 16))%string) bs).

(** ** The script, statement by statement

    Importing the module runs the example: two assignments, the two calls and
    three [print]s.  A program takes the lines on standard output so far and
    gives the lines after it together with its value or the exception that
    ended it. *)
Module Script.

Definition prog (E A : Type) : Type :=
  list string -> list string * result E A.

Definition ret {E A} (a : A) : prog E A := fun out => (out, Ok a).

Definition seq {E A B} (c : prog E A) (k : A -> prog E B) : prog E B :=
  fun out =>
    match c out with
    | (out', Ok a) => k a out'
    | (out', Raise e) => (out', Raise e)
    end.

(** A call of one of the two functions: no output of its own. *)
Definition call {E A} (r : result E A) : prog E A := fun out => (out, r).

(** [print(line)]. *)
Definition print {E} (line : string) : prog E unit :=
  fun out => (out ++ [line], Ok tt).

Definition main {E} (hash_secret_raw : primitive E) : prog E unit :=
  let password := Usage.password in
  let user_salt := Usage.user_salt in
  seq (call (randomize_salt user_salt)) (fun randomized_salt =>
  seq (call (derive_key hash_secret_raw password randomized_salt
               5 65536 4 32)) (fun derived_key =>
  seq (print ("Derived Key (hex): " ++ hex derived_key)%string) (fun _ =>
  seq (print ("User Salt (hex): " ++ hex user_salt)%string) (fun _ =>
  print ("Randomized Salt (hex): " ++ hex randomized_salt)%string)))).

End Script.

Example K_first_last :
  nth 0 SHA256.K 0 = 0x428a2f98 /\ nth 63 SHA256.K 0 = 0xc67178f2
  /\ length SHA256.K = 64%nat.
Proof. vm_compute. auto. Qed.

Example sha256_abc :
  hex (SHA256.hash (bytes_of_string "abc"))
  = "ba7816bf8f01cfea414140de5dae2223b00361a396177a9cb410ff61f20015ad"%string.
Proof. vm_compute. reflexivity. Qed.

Example sha256_empty :
  hex (SHA256.hash [])
  = "e3b0c44298fc1c149afbf4c8996fb92427ae41e4649b934ca495991b7852b855"%string.
Proof. vm_compute. reflexivity. Qed.

Example sha256_two_blocks :
  hex (SHA256.hash (repeat "a"%byte 100))
  = "2816597888e4a0d3a36b82b83316ab32680eb8f00f8cd3b904d681246d285a0e"%string.
Proof. vm_compute. reflexivity. Qed.

Example hmac_rfc4231_case1 :
  hex (hmac.digest (hmac.new (repeat x0b 20) (bytes_of_string "Hi There")))
  = "b0344c61d8db38535ca8afceaf0bf12b881dc200c9833da726e9376c2e32cff7"%string.
Proof. vm_compute. reflexivity. Qed.

Example hmac_rfc4231_long_key :
  hex (hmac.digest
         (hmac.new (repeat xaa 131)
            (bytes_of_string
               "Test Using Larger Than Block-Size Key - Hash Key First")))
  = "60e431591ee0b67f0d8a26aacbf5b77f8e0bc6213728c5140546040f0ee37f54"%string.
Proof. vm_compute. reflexivity. Qed.

(** The UTF-8 bytes of U+007F, U+0080, U+07FF, U+0800, U+FFFF, U+10000 and
    U+10FFFF: the ends of the four length classes. *)
Example encode_utf8_boundaries :
  @encode_utf8 unit [0x7f; 0x80; 0x7ff; 0x800; 0xffff; 0x10000; 0x10ffff]%N
  = Ok (map byte_of_Z
          [127; 194; 128; 223; 191; 224; 160; 128; 239; 191; 191;
           240; 144; 128; 128; 244; 143; 191; 191]).
Proof. vm_compute. reflexivity. Qed.

(** ** Lengths *)

Lemma be_bytes_length (len : nat) (n : Z) :
  length (SHA256.be_bytes len n) = len.
Proof.
  induction len as [|len IH]; simpl; [reflexivity | now rewrite IH].
Qed.

Lemma output_length (s : SHA256.state) : length (SHA256.output s) = 32%nat.
Proof.
  unfold SHA256.output.
  repeat rewrite length_app.
  repeat rewrite be_bytes_length.
  reflexivity.
Qed.

Lemma sha256_length (msg : bytes) : length (SHA256.hash msg) = 32%nat.
Proof. unfold SHA256.hash. apply output_length. Qed.

Lemma hashlib_digest_length (h : hashlib.hash_object) :
  length (hashlib.digest h) = hashlib.digest_size.
Proof. unfold hashlib.digest. apply sha256_length. Qed.

Lemma hmac_digest_length (h : hmac.HMAC) : length (hmac.digest h) = 32%nat.
Proof. unfold hmac.digest. apply hashlib_digest_length. Qed.

(** ** [hmac] against RFC 2104 *)

Lemma hmac_new_digest (key msg : bytes) :
  hmac.digest (hmac.new key msg) = HMAC_SHA256 key msg.
Proof.
  unfold hmac.digest, hmac.new, HMAC_SHA256, hashlib.digest, hashlib.update,
    hashlib.copy, hashlib.sha256, hmac.ljust, hmac.translate.
  cbn [hmac.outer hmac.inner hashlib.fed app].
  reflexivity.
Qed.

(** ** [falsy] *)

Lemma falsy_true (b : bytes) : falsy b = true <-> b = [].
Proof. destruct b; simpl; split; congruence. Qed.

Lemma falsy_false (b : bytes) : falsy b = false <-> b <> [].
Proof. destruct b; simpl; split; congruence. Qed.

(** ** SaltExpander *)

Section SaltExpander.

Context {E : Type}.

Lemma randomize_salt_nonempty (seed : bytes) :
  seed <> [] ->
  @randomize_salt E seed
  = Ok (hmac.digest
          (hmac.new (hashlib.digest (hashlib.sha256 seed)) seed)).
Proof.
  intros Hne. unfold randomize_salt.
  apply falsy_false in Hne. now rewrite Hne.
Qed.

(** The relation of runs is the graph of the function. *)
Lemma randomize_salt_run_iff (seed : bytes) (r : result E bytes) :
  randomize_salt_run seed r <-> randomize_salt seed = r.
Proof.
  unfold randomize_salt. split.
  - intros Hrun. destruct Hrun as [Hf | key prf Hf Hkey Hprf].
    + now rewrite Hf.
    + rewrite Hf. now subst.
  - intros <-. destruct (falsy seed) eqn:Hf.
    + now constructor.
    + now econstructor.
Qed.

(** C1.  For every non-empty seed, [randomize_salt] returns the self-keyed
    construction of spec section 4.1 with SHA-256 as the hash and
    RFC 2104's HMAC-SHA256 as the keyed function: the key is the SHA-256
    digest of the seed and the result is the whole HMAC digest of the seed
    under that key. *)
Theorem randomize_salt_self_keyed_hmac (seed : bytes) :
  seed <> [] ->
  @randomize_salt E seed = Ok (spec_expand SHA256.hash HMAC_SHA256 seed).
Proof.
  intros Hne.
  rewrite (randomize_salt_nonempty seed Hne).
  rewrite hmac_new_digest.
  reflexivity.
Qed.

(** C4.  For every non-empty seed, whatever its length, [randomize_salt]
    returns a byte sequence of exactly 32 bytes. *)
Theorem randomize_salt_32_bytes (seed : bytes) :
  seed <> [] ->
  exists out, @randomize_salt E seed = Ok out /\ length out = 32%nat.
Proof.
  intros Hne. eexists. split.
  - apply randomize_salt_nonempty, Hne.
  - apply hmac_digest_length.
Qed.

(** C5.  On the empty byte sequence [randomize_salt] raises [ValueError]
    (the spec's InvalidInputError), and that is its only failure: on every
    non-empty seed it returns, and an exception it raises is that
    [ValueError] on the empty seed. *)
Theorem randomize_salt_fails_only_on_empty :
  @randomize_salt E []
  = Raise (ValueError "User-provided salt must not be empty.")
  /\ (forall seed, seed <> [] -> exists out, @randomize_salt E seed = Ok out)
  /\ (forall seed e,
        @randomize_salt E seed = Raise e ->
        seed = []
        /\ e = ValueError "User-provided salt must not be empty.").
Proof.
  split; [reflexivity | split].
  - intros seed Hne. eexists. apply randomize_salt_nonempty, Hne.
  - intros seed e. unfold randomize_salt.
    destruct (falsy seed) eqn:Hf; intros Hr.
    + apply falsy_true in Hf. split; [assumption | congruence].
    + discriminate.
Qed.

End SaltExpander.

(** ** UTF-8 *)

Lemma encode_char_scalar (c : N) :
  scalar_value c <-> exists bs, encode_char c = Some bs.
Proof.
  unfold scalar_value, encode_char.
  destruct (Z.ltb_spec (Z.of_N c) 0x80);
    [split; [eauto | lia] |].
  destruct (Z.ltb_spec (Z.of_N c) 0x800);
    [split; [eauto | lia] |].
  destruct (Z.leb_spec 0xD800 (Z.of_N c)), (Z.leb_spec (Z.of_N c) 0xDFFF);
    cbn [andb].
  - split; [lia | intros [bs Hbs]; discriminate].
  - destruct (Z.ltb_spec (Z.of_N c) 0x10000); [split; [eauto | lia] |].
    destruct (Z.leb_spec (Z.of_N c) 0x10FFFF); [split; [eauto | lia] |].
    split; [lia | intros [bs Hbs]; discriminate].
  - destruct (Z.ltb_spec (Z.of_N c) 0x10000); [split; [eauto | lia] |].
    lia.
  - lia.
Qed.

Section Encoding.

Context {E : Type}.

Lemma encode_from_scalar (s : str) :
  Forall scalar_value s ->
  forall start, exists bs, @encode_from E start s = Ok bs.
Proof.
  induction 1 as [|c s Hc _ IH]; intros start; simpl.
  - eauto.
  - apply encode_char_scalar in Hc. destruct Hc as [bs ->].
    destruct (IH (S start)) as [tail ->]. simpl. eauto.
Qed.

Lemma encode_from_Ok (s : str) :
  forall start bs, @encode_from E start s = Ok bs -> Forall scalar_value s.
Proof.
  induction s as [|c s IH]; intros start bs; simpl.
  - constructor.
  - destruct (encode_char c) as [cs|] eqn:Hc; [|discriminate].
    destruct (encode_from (S start) s) as [tail|e] eqn:Hs; simpl;
      [|discriminate].
    intros _. constructor.
    + apply encode_char_scalar. eauto.
    + eapply IH, Hs.
Qed.

(** The encoder raises nothing but [UnicodeEncodeError]. *)
Lemma encode_from_Raise (s : str) :
  forall start e,
    @encode_from E start s = Raise e ->
    exists k, e = UnicodeEncodeError k.
Proof.
  induction s as [|c s IH]; intros start e; simpl.
  - discriminate.
  - destruct (encode_char c) as [cs|].
    + destruct (encode_from (S start) s) as [tail|e'] eqn:Hs; simpl.
      * discriminate.
      * intros [= <-]. eapply IH, Hs.
    + intros [= <-]. eauto.
Qed.

(** A string is encoded exactly when it holds no surrogate. *)
Lemma encode_utf8_scalar (s : str) :
  Forall scalar_value s <-> exists bs, @encode_utf8 E s = Ok bs.
Proof.
  unfold encode_utf8. split.
  - intros Hs. apply encode_from_scalar, Hs.
  - intros [bs Hbs]. eapply encode_from_Ok, Hbs.
Qed.

End Encoding.

(** ** The stand-in primitive meets the contract *)

Lemma flat_map_length_const {A B} (f : A -> list B) (n : nat) (l : list A) :
  (forall a, length (f a) = n) ->
  length (flat_map f l) = (n * length l)%nat.
Proof.
  intros Hf. induction l as [|a l IH]; simpl.
  - lia.
  - rewrite length_app, Hf, IH. lia.
Qed.

Lemma model_rejects_nonpositive_cost :
  rejects_nonpositive_cost (eq InvalidParameterError) model_hash_secret_raw.
Proof.
  intros secret salt t m p l ty Hbad.
  exists InvalidParameterError. split; [|reflexivity].
  unfold model_hash_secret_raw.
  destruct (Z.leb_spec t 0), (Z.leb_spec m 0), (Z.leb_spec p 0),
    (Z.leb_spec l 0); cbn [orb]; try reflexivity.
  lia.
Qed.

Lemma model_output_length secret salt t m p l ty :
  length (model_output secret salt t m p l ty) = Z.to_nat l.
Proof.
  unfold model_output.
  rewrite length_firstn.
  rewrite (flat_map_length_const _ 32)
    by (intros; unfold model_block; apply hmac_digest_length).
  rewrite length_seq.
  pose proof (Nat.div_mod_eq (Z.to_nat l) 32) as Hdiv.
  pose proof (Nat.mod_upper_bound (Z.to_nat l) 32) as Hmod.
  lia.
Qed.

Lemma model_returns_hash_len : returns_hash_len model_hash_secret_raw.
Proof.
  intros secret salt t m p l ty key.
  unfold model_hash_secret_raw.
  destruct (Z.leb_spec t 0), (Z.leb_spec m 0), (Z.leb_spec p 0),
    (Z.leb_spec l 0); cbn [orb]; try discriminate.
  intros Hkey.
  assert (key = model_output secret salt t m p l ty) as -> by congruence.
  rewrite model_output_length. lia.
Qed.

Lemma graph_deterministic {E} (f : primitive E) : deterministic (graph f).
Proof.
  intros secret salt t m p l ty o1 o2. unfold graph. congruence.
Qed.

(** ** KeyDeriver *)

Section KeyDeriver.

Context {E : Type}.
Variable hash_secret_raw : primitive E.

Lemma bind_returned (r : E + bytes) :
  bind (returned r) (fun derived_key => Ok derived_key) = returned r.
Proof. destruct r; reflexivity. Qed.

Lemma derive_key_empty_salt password t m p l :
  derive_key hash_secret_raw password [] t m p l
  = Raise (ValueError "Salt must be provided and cannot be empty.").
Proof. reflexivity. Qed.

Lemma derive_key_encoded password secret salt t m p l :
  salt <> [] ->
  @encode_utf8 E password = Ok secret ->
  derive_key hash_secret_raw password salt t m p l
  = returned (hash_secret_raw secret salt t m p l Type_.ID).
Proof.
  intros Hsalt Henc. unfold derive_key.
  apply falsy_false in Hsalt. rewrite Hsalt, Henc. cbn [bind].
  apply bind_returned.
Qed.

Lemma derive_key_not_encoded password e salt t m p l :
  salt <> [] ->
  @encode_utf8 E password = Raise e ->
  derive_key hash_secret_raw password salt t m p l = Raise e.
Proof.
  intros Hsalt Henc. unfold derive_key.
  apply falsy_false in Hsalt. now rewrite Hsalt, Henc.
Qed.

(** [derive_key] raises [ValueError] exactly when the salt is empty. *)
Lemma derive_key_ValueError password salt t m p l msg :
  derive_key hash_secret_raw password salt t m p l = Raise (ValueError msg)
  -> salt = [].
Proof.
  destruct salt as [|b salt]; [reflexivity | intros Hr; exfalso].
  assert (b :: salt <> []) as Hne by discriminate.
  destruct (@encode_utf8 E password) as [secret|e] eqn:Henc.
  - rewrite (derive_key_encoded _ _ _ t m p l Hne Henc) in Hr.
    destruct (hash_secret_raw secret (b :: salt) t m p l Type_.ID);
      discriminate.
  - rewrite (derive_key_not_encoded _ _ _ t m p l Hne Henc) in Hr.
    apply encode_from_Raise in Henc. destruct Henc as [k ->].
    discriminate.
Qed.

(** A run against a primitive that is a function is the function's
    result. *)
Lemma derive_key_run_iff password salt t m p l (r : result E bytes) :
  derive_key_run (graph hash_secret_raw) password salt t m p l r
  <-> derive_key hash_secret_raw password salt t m p l = r.
Proof.
  split.
  - intros Hrun.
    destruct Hrun as [Hs | start Hs Henc | secret outcome Hs Henc Hcall].
    + apply falsy_true in Hs. now subst.
    + apply falsy_false in Hs. now apply derive_key_not_encoded.
    + apply falsy_false in Hs. unfold graph in Hcall. subst outcome.
      now apply derive_key_encoded.
  - intros <-. destruct (falsy salt) eqn:Hs.
    + pose proof Hs as Hs'. apply falsy_true in Hs'. subst salt.
      now constructor.
    + pose proof Hs as Hne. apply falsy_false in Hne.
      destruct (@encode_utf8 E password) as [secret|e] eqn:Henc.
      * rewrite (derive_key_encoded _ _ _ t m p l Hne Henc).
        now apply run_delegate with (secret := secret).
      * rewrite (derive_key_not_encoded _ _ _ t m p l Hne Henc).
        pose proof Henc as Hk. apply encode_from_Raise in Hk.
        destruct Hk as [k ->]. now constructor.
Qed.

(** C2 (amended).  For every password string without surrogate code points
    (those are the strings UTF-8 can encode), every non-empty salt and all
    parameters, [derive_key] is the call of the primitive with the Argon2id
    variant ([Type.ID]), the four parameters as given, the UTF-8 bytes of
    the password as the secret and the salt as the salt. *)
Theorem derive_key_delegates_to_argon2id password salt t m p l :
  salt <> [] ->
  Forall scalar_value password ->
  exists secret,
    @encode_utf8 E password = Ok secret
    /\ derive_key hash_secret_raw password salt t m p l
       = returned (hash_secret_raw secret salt t m p l Type_.ID).
Proof.
  intros Hsalt Hpw.
  apply (encode_utf8_scalar (E := E)) in Hpw. destruct Hpw as [secret Henc].
  exists secret. split; [assumption |].
  now apply derive_key_encoded.
Qed.

(** C6.  With the empty salt [derive_key] raises [ValueError] (the spec's
    InvalidInputError) for every password and all parameters.  The test is
    [derive_key]'s own first statement: the result is the same whatever the
    primitive is and wherever the salt came from. *)
Theorem derive_key_rejects_empty_salt password t m p l :
  derive_key hash_secret_raw password [] t m p l
  = Raise (ValueError "Salt must be provided and cannot be empty.")
  /\ derive_key_run (graph hash_secret_raw) password [] t m p l
       (Raise (ValueError "Salt must be provided and cannot be empty.")).
Proof.
  split.
  - apply derive_key_empty_salt.
  - now constructor.
Qed.

(** C7 (amended).  Let the primitive refuse every call in which one of
    [time_cost], [memory_cost], [parallelism] and [hash_len] is not
    positive, with an exception of the class InvalidParameterError.  Then
    for every password without surrogate code points and every non-empty
    salt, [derive_key] with [time_cost = 0], with [parallelism = 0] or with
    any other parameter that is not positive fails with that exception. *)
Theorem derive_key_nonpositive_cost_rejected (invalid : E -> Prop)
    password salt t m p l :
  rejects_nonpositive_cost invalid hash_secret_raw ->
  salt <> [] ->
  Forall scalar_value password ->
  t <= 0 \/ m <= 0 \/ p <= 0 \/ l <= 0 ->
  exists e,
    derive_key hash_secret_raw password salt t m p l
    = Raise (PrimitiveError e)
    /\ invalid e.
Proof.
  intros Hprim Hsalt Hpw Hbad.
  apply (encode_utf8_scalar (E := E)) in Hpw. destruct Hpw as [secret Henc].
  destruct (Hprim secret salt t m p l Type_.ID Hbad) as [e [He Hinv]].
  exists e. split; [|assumption].
  rewrite (derive_key_encoded _ _ _ t m p l Hsalt Henc), He.
  reflexivity.
Qed.

(** C8.  Let the primitive return [hash_len] bytes whenever it returns.
    Then for every password, salt and parameters a byte sequence returned by
    [derive_key] has exactly [hash_len] bytes; and with a non-empty salt
    [derive_key] does return one whenever the primitive accepts the call,
    for [hash_len] 16, 32, 64 or any other. *)
Theorem derive_key_output_length password salt t m p l :
  returns_hash_len hash_secret_raw ->
  (forall key,
      derive_key hash_secret_raw password salt t m p l = Ok key ->
      Z.of_nat (length key) = l)
  /\ (forall secret key,
        salt <> [] ->
        @encode_utf8 E password = Ok secret ->
        hash_secret_raw secret salt t m p l Type_.ID = inr key ->
        derive_key hash_secret_raw password salt t m p l = Ok key
        /\ Z.of_nat (length key) = l).
Proof.
  intros Hlen. split.
  - intros key. unfold derive_key.
    destruct (falsy salt); [discriminate |].
    destruct (@encode_utf8 E password) as [secret|e]; [|discriminate].
    cbn [bind]. rewrite bind_returned.
    destruct (hash_secret_raw secret salt t m p l Type_.ID) as [e|key']
      eqn:Hcall; [discriminate |].
    intros [= <-]. eapply Hlen, Hcall.
  - intros secret key Hsalt Henc Hcall. split.
    + rewrite (derive_key_encoded _ _ _ t m p l Hsalt Henc), Hcall.
      reflexivity.
    + eapply Hlen, Hcall.
Qed.

(** C9.  A call that gives only the password and the salt is a call with
    [time_cost = 2], [memory_cost = 102400], [parallelism = 8] and
    [hash_len = 32]: it has the result of [derive_key] at those values and
    of the call that gives the four values explicitly. *)
Theorem derive_key_defaults password salt :
  call_derive_key hash_secret_raw password salt None None None None
  = derive_key hash_secret_raw password salt 2 102400 8 32
  /\ call_derive_key hash_secret_raw password salt None None None None
     = call_derive_key hash_secret_raw password salt
         (Some 2) (Some 102400) (Some 8) (Some 32).
Proof. split; reflexivity. Qed.

(** C10.  With a non-empty salt the empty password is accepted:
    [derive_key] calls the primitive with the empty byte string as the
    secret and its result is the primitive's.  No password, empty or not,
    makes [derive_key] raise [ValueError] then: the salt is the only input
    tested for emptiness. *)
Theorem derive_key_accepts_empty_password salt t m p l :
  salt <> [] ->
  derive_key hash_secret_raw [] salt t m p l
  = returned (hash_secret_raw [] salt t m p l Type_.ID)
  /\ (forall password msg,
        derive_key hash_secret_raw password salt t m p l
        <> Raise (ValueError msg)).
Proof.
  intros Hsalt. split.
  - now apply derive_key_encoded.
  - intros password msg Hr. apply derive_key_ValueError in Hr.
    contradiction.
Qed.

End KeyDeriver.

(** ** Two runs *)

Section Determinism.

Context {E : Type}.
Variable prim : behaviour E.
Hypothesis prim_deterministic : deterministic prim.

Lemma randomize_salt_run_functional seed (r1 r2 : result E bytes) :
  randomize_salt_run seed r1 -> randomize_salt_run seed r2 -> r1 = r2.
Proof.
  intros H1 H2.
  destruct H1 as [Hf1 | key1 prf1 Hf1 Hk1 Hp1];
    destruct H2 as [Hf2 | key2 prf2 Hf2 Hk2 Hp2];
    try congruence.
Qed.

Lemma derive_key_run_functional password salt t m p l
    (r1 r2 : result E bytes) :
  derive_key_run prim password salt t m p l r1 ->
  derive_key_run prim password salt t m p l r2 ->
  r1 = r2.
Proof.
  intros H1 H2.
  destruct H1 as [Hs1 | k1 Hs1 He1 | secret1 o1 Hs1 He1 Hc1];
    destruct H2 as [Hs2 | k2 Hs2 He2 | secret2 o2 Hs2 He2 Hc2];
    try congruence.
  assert (secret1 = secret2) by congruence. subst secret2.
  f_equal. eapply prim_deterministic; eassumption.
Qed.

(** C3.  Two calls with the same arguments agree.  For every non-empty
    seed, two runs of [randomize_salt] end with the same output.  For every
    password, non-empty salt and parameters, two runs of [derive_key] end
    the same way (the same derived key, or the same exception), given that
    the primitive itself answers equal calls equally. *)
Theorem two_runs_agree seed password salt t m p l :
  seed <> [] ->
  salt <> [] ->
  (forall r1 r2 : result E bytes,
      randomize_salt_run seed r1 ->
      randomize_salt_run seed r2 ->
      r1 = r2 /\ exists out, r1 = Ok out)
  /\ (forall r1 r2,
        derive_key_run prim password salt t m p l r1 ->
        derive_key_run prim password salt t m p l r2 ->
        r1 = r2).
Proof.
  intros Hseed Hsalt. split.
  - intros r1 r2 H1 H2. split.
    + eapply randomize_salt_run_functional; eassumption.
    + apply randomize_salt_run_iff in H1.
      rewrite (randomize_salt_nonempty seed Hseed) in H1. eauto.
  - intros r1 r2. apply derive_key_run_functional.
Qed.

End Determinism.

(** ** The example run *)

(** The expanded salt of the seed [b"User-ID-2"], as [hashlib] and [hmac]
    compute it. *)
Lemma randomized_salt_value {E : Type} :
  @Usage.randomized_salt E
  = Ok (map byte_of_Z
          [25; 251; 112; 244; 1; 234; 126; 150; 221; 168; 75; 110; 29; 69;
           110; 81; 146; 196; 69; 251; 179; 157; 169; 240; 2; 212; 59; 127;
           108; 179; 189; 230]).
Proof. vm_compute. reflexivity. Qed.

(** On the seed [b"User-ID-2"] of the example, [randomize_salt] returns the
    32 bytes that [.hex()] prints as 19fb70f4...6cb3bde6. *)
Theorem randomize_salt_user_id_2 :
  exists out,
    @randomize_salt primitive_error (bytes_of_string "User-ID-2") = Ok out
    /\ length out = 32%nat
    /\ hex out
       = "19fb70f401ea7e96dda84b6e1d456e5192c445fbb39da9f002d43b7f6cb3bde6"%string.
Proof.
  eexists. split; [vm_compute; reflexivity |].
  split; vm_compute; reflexivity.
Qed.

(** The call of the example reaches the primitive with the ASCII bytes of the
    password, the expanded salt, the four parameters of the script and
    [Type.ID]. *)
Theorem usage_derived_key {E : Type} (hash_secret_raw : primitive E) :
  Usage.derived_key hash_secret_raw
  = returned
      (hash_secret_raw (bytes_of_string "your_password_here")
         (map byte_of_Z
            [25; 251; 112; 244; 1; 234; 126; 150; 221; 168; 75; 110; 29; 69;
             110; 81; 146; 196; 69; 251; 179; 157; 169; 240; 2; 212; 59; 127;
             108; 179; 189; 230])
         5 65536 4 32 Type_.ID).
Proof.
  unfold Usage.derived_key. rewrite randomized_salt_value. cbn [bind].
  apply derive_key_encoded.
  - vm_compute. discriminate.
  - vm_compute. reflexivity.
Qed.

(** With a non-empty salt, a password that holds a code point UTF-8 cannot
    encode ends the call in [UnicodeEncodeError], whatever the primitive and
    the parameters are. *)
Theorem derive_key_unencodable_password {E : Type} password salt :
  salt <> [] ->
  ~ Forall scalar_value password ->
  exists start,
    forall (hash_secret_raw : primitive E) t m p l,
      derive_key hash_secret_raw password salt t m p l
      = Raise (UnicodeEncodeError start).
Proof.
  intros Hsalt Hpw.
  destruct (@encode_utf8 E password) as [secret|e] eqn:Henc.
  - exfalso. apply Hpw. apply (encode_utf8_scalar (E := E)). eauto.
  - pose proof Henc as Hk. apply encode_from_Raise in Hk.
    destruct Hk as [k ->]. exists k. intros prim t m p l.
    now apply derive_key_not_encoded.
Qed.

(** ** Instances *)

Lemma usage_password_scalar : Forall scalar_value Usage.password.
Proof.
  apply (encode_utf8_scalar (E := primitive_error)).
  eexists. vm_compute. reflexivity.
Qed.

Lemma expanded_salt_nonempty (seed : bytes) :
  spec_expand SHA256.hash HMAC_SHA256 seed <> [].
Proof.
  intros Hnil. apply (f_equal (@length byte)) in Hnil.
  unfold spec_expand, HMAC_SHA256 in Hnil. cbv zeta in Hnil.
  rewrite sha256_length in Hnil. discriminate.
Qed.

Lemma usage_user_salt_nonempty : Usage.user_salt <> [].
Proof. vm_compute. discriminate. Qed.

Lemma randomize_salt_self_keyed_hmac_witness :
  Usage.user_salt <> []
  /\ @randomize_salt primitive_error Usage.user_salt
     = Ok (spec_expand SHA256.hash HMAC_SHA256 Usage.user_salt).
Proof.
  split; [exact usage_user_salt_nonempty |].
  exact (randomize_salt_self_keyed_hmac Usage.user_salt
           usage_user_salt_nonempty).
Defined.

(** Seeds of 1, 64 and 10000 bytes. *)
Lemma randomize_salt_32_bytes_witness :
  (exists out,
      @randomize_salt primitive_error [x61] = Ok out /\ length out = 32%nat)
  /\ (exists out,
        @randomize_salt primitive_error (repeat x62 64) = Ok out
        /\ length out = 32%nat)
  /\ Z.of_nat (length (x63 :: repeat x63 (Z.to_nat 9999))) = 10000
  /\ (exists out,
        @randomize_salt primitive_error (x63 :: repeat x63 (Z.to_nat 9999))
        = Ok out
        /\ length out = 32%nat).
Proof.
  split; [|split; [|split]].
  - apply (randomize_salt_32_bytes [x61]). discriminate.
  - apply (randomize_salt_32_bytes (repeat x62 64)). discriminate.
  - rewrite length_cons, repeat_length. reflexivity.
  - apply (randomize_salt_32_bytes (x63 :: repeat x63 (Z.to_nat 9999))).
    discriminate.
Defined.

Lemma randomize_salt_fails_only_on_empty_witness :
  Usage.user_salt <> []
  /\ exists out, @randomize_salt primitive_error Usage.user_salt = Ok out.
Proof.
  split; [exact usage_user_salt_nonempty |].
  exact (proj1 (proj2 (@randomize_salt_fails_only_on_empty primitive_error))
           Usage.user_salt usage_user_salt_nonempty).
Defined.

(** C2, as stated, fails on a password that holds a lone surrogate: for
    ["\ud800"] the call [password.encode('utf-8')] raises
    [UnicodeEncodeError] and the primitive is never reached, so the result is
    the primitive's for no secret at all. *)
Lemma derive_key_surrogate_password_not_delegated :
  bytes_of_string "saltsalt" <> []
  /\ derive_key model_hash_secret_raw [0xD800%N] (bytes_of_string "saltsalt")
       5 65536 4 32
     = Raise (UnicodeEncodeError 0)
  /\ (forall secret,
        derive_key model_hash_secret_raw [0xD800%N]
          (bytes_of_string "saltsalt") 5 65536 4 32
        <> returned
             (model_hash_secret_raw secret (bytes_of_string "saltsalt")
                5 65536 4 32 Type_.ID)).
Proof.
  split; [vm_compute; discriminate |].
  assert (derive_key model_hash_secret_raw [0xD800%N]
            (bytes_of_string "saltsalt") 5 65536 4 32
          = Raise (UnicodeEncodeError 0)) as Hr by reflexivity.
  split; [exact Hr |].
  intros secret. rewrite Hr.
  destruct (model_hash_secret_raw secret (bytes_of_string "saltsalt")
              5 65536 4 32 Type_.ID); discriminate.
Qed.

Lemma derive_key_delegates_to_argon2id_witness :
  spec_expand SHA256.hash HMAC_SHA256 Usage.user_salt <> []
  /\ Forall scalar_value Usage.password
  /\ exists secret,
       @encode_utf8 primitive_error Usage.password = Ok secret
       /\ derive_key model_hash_secret_raw Usage.password
            (spec_expand SHA256.hash HMAC_SHA256 Usage.user_salt)
            5 65536 4 32
          = returned
              (model_hash_secret_raw secret
                 (spec_expand SHA256.hash HMAC_SHA256 Usage.user_salt)
                 5 65536 4 32 Type_.ID).
Proof.
  split; [apply expanded_salt_nonempty |].
  split; [apply usage_password_scalar |].
  exact (derive_key_delegates_to_argon2id model_hash_secret_raw
           Usage.password
           (spec_expand SHA256.hash HMAC_SHA256 Usage.user_salt)
           5 65536 4 32
           (expanded_salt_nonempty Usage.user_salt) usage_password_scalar).
Defined.

(** C7, as stated, fails on a password that holds a lone surrogate, here
    ["p\udc80"]: with [time_cost = 0] and a primitive that refuses it, the
    call still ends in [UnicodeEncodeError], raised while the arguments of
    the primitive are evaluated. *)
Lemma derive_key_surrogate_password_zero_time_cost :
  rejects_nonpositive_cost (eq InvalidParameterError) model_hash_secret_raw
  /\ bytes_of_string "saltsalt" <> []
  /\ derive_key model_hash_secret_raw [0x70%N; 0xDC80%N]
       (bytes_of_string "saltsalt") 0 65536 4 32
     = Raise (UnicodeEncodeError 1)
  /\ (forall e : primitive_error,
        derive_key model_hash_secret_raw [0x70%N; 0xDC80%N]
          (bytes_of_string "saltsalt") 0 65536 4 32
        <> Raise (PrimitiveError e)).
Proof.
  split; [apply model_rejects_nonpositive_cost |].
  split; [vm_compute; discriminate |].
  split; [reflexivity |].
  intros e. discriminate.
Qed.

(** [time_cost = 0], [parallelism = 0], [memory_cost = -1] and
    [hash_len = 0], one at a time. *)
Lemma derive_key_nonpositive_cost_rejected_witness :
  derive_key model_hash_secret_raw Usage.password
    (spec_expand SHA256.hash HMAC_SHA256 Usage.user_salt) 0 65536 4 32
  = Raise (PrimitiveError InvalidParameterError)
  /\ derive_key model_hash_secret_raw Usage.password
       (spec_expand SHA256.hash HMAC_SHA256 Usage.user_salt) 5 65536 0 32
     = Raise (PrimitiveError InvalidParameterError)
  /\ derive_key model_hash_secret_raw Usage.password
       (spec_expand SHA256.hash HMAC_SHA256 Usage.user_salt) 5 (-1) 4 32
     = Raise (PrimitiveError InvalidParameterError)
  /\ derive_key model_hash_secret_raw Usage.password
       (spec_expand SHA256.hash HMAC_SHA256 Usage.user_salt) 5 65536 4 0
     = Raise (PrimitiveError InvalidParameterError).
Proof.
  assert (forall t m p l,
             t <= 0 \/ m <= 0 \/ p <= 0 \/ l <= 0 ->
             derive_key model_hash_secret_raw Usage.password
               (spec_expand SHA256.hash HMAC_SHA256 Usage.user_salt) t m p l
             = Raise (PrimitiveError InvalidParameterError)) as Hcase.
  { intros t m p l Hbad.
    destruct (derive_key_nonpositive_cost_rejected model_hash_secret_raw
                (eq InvalidParameterError) Usage.password
                (spec_expand SHA256.hash HMAC_SHA256 Usage.user_salt)
                t m p l
                model_rejects_nonpositive_cost
                (expanded_salt_nonempty Usage.user_salt)
                usage_password_scalar Hbad)
      as [e [Hr <-]].
    exact Hr. }
  split; [|split; [|split]]; apply Hcase; lia.
Defined.

(** Output lengths 16, 32 and 64. *)
Lemma derive_key_output_length_witness :
  returns_hash_len model_hash_secret_raw
  /\ (exists key,
        derive_key model_hash_secret_raw Usage.password
          (spec_expand SHA256.hash HMAC_SHA256 Usage.user_salt) 5 65536 4 16
        = Ok key /\ Z.of_nat (length key) = 16)
  /\ (exists key,
        derive_key model_hash_secret_raw Usage.password
          (spec_expand SHA256.hash HMAC_SHA256 Usage.user_salt) 5 65536 4 32
        = Ok key /\ Z.of_nat (length key) = 32)
  /\ (exists key,
        derive_key model_hash_secret_raw Usage.password
          (spec_expand SHA256.hash HMAC_SHA256 Usage.user_salt) 5 65536 4 64
        = Ok key /\ Z.of_nat (length key) = 64).
Proof.
  split; [apply model_returns_hash_len |].
  split; [|split].
  - eexists.
    eapply (proj2 (derive_key_output_length model_hash_secret_raw
                     Usage.password _ 5 65536 4 16 model_returns_hash_len)).
    + apply expanded_salt_nonempty.
    + vm_compute. reflexivity.
    + reflexivity.
  - eexists.
    eapply (proj2 (derive_key_output_length model_hash_secret_raw
                     Usage.password _ 5 65536 4 32 model_returns_hash_len)).
    + apply expanded_salt_nonempty.
    + vm_compute. reflexivity.
    + reflexivity.
  - eexists.
    eapply (proj2 (derive_key_output_length model_hash_secret_raw
                     Usage.password _ 5 65536 4 64 model_returns_hash_len)).
    + apply expanded_salt_nonempty.
    + vm_compute. reflexivity.
    + reflexivity.
Defined.

Lemma derive_key_accepts_empty_password_witness :
  spec_expand SHA256.hash HMAC_SHA256 Usage.user_salt <> []
  /\ derive_key model_hash_secret_raw []
       (spec_expand SHA256.hash HMAC_SHA256 Usage.user_salt) 5 65536 4 32
     = returned
         (model_hash_secret_raw []
            (spec_expand SHA256.hash HMAC_SHA256 Usage.user_salt)
            5 65536 4 32 Type_.ID).
Proof.
  split; [apply expanded_salt_nonempty |].
  exact (proj1 (derive_key_accepts_empty_password model_hash_secret_raw
                  (spec_expand SHA256.hash HMAC_SHA256 Usage.user_salt)
                  5 65536 4 32 (expanded_salt_nonempty Usage.user_salt))).
Defined.

(** Two runs of the example: of [randomize_salt] on [b"User-ID-2"], and of
    [derive_key] on the expanded salt against the stand-in primitive. *)
Lemma two_runs_agree_witness :
  deterministic (graph model_hash_secret_raw)
  /\ (forall r1 r2 : result primitive_error bytes,
        randomize_salt_run Usage.user_salt r1 ->
        randomize_salt_run Usage.user_salt r2 ->
        r1 = r2 /\ exists out, r1 = Ok out)
  /\ (forall r1 r2,
        derive_key_run (graph model_hash_secret_raw) Usage.password
          (spec_expand SHA256.hash HMAC_SHA256 Usage.user_salt)
          5 65536 4 32 r1 ->
        derive_key_run (graph model_hash_secret_raw) Usage.password
          (spec_expand SHA256.hash HMAC_SHA256 Usage.user_salt)
          5 65536 4 32 r2 ->
        r1 = r2).
Proof.
  split; [apply graph_deterministic |].
  exact (two_runs_agree (graph model_hash_secret_raw)
           (graph_deterministic model_hash_secret_raw)
           Usage.user_salt Usage.password
           (spec_expand SHA256.hash HMAC_SHA256 Usage.user_salt)
           5 65536 4 32
           usage_user_salt_nonempty
           (expanded_salt_nonempty Usage.user_salt)).
Defined.

Lemma derive_key_unencodable_password_witness :
  bytes_of_string "saltsalt" <> []
  /\ ~ Forall scalar_value [0x70%N; 0xDC80%N]
  /\ exists start,
       forall (hash_secret_raw : primitive primitive_error) t m p l,
         derive_key hash_secret_raw [0x70%N; 0xDC80%N]
           (bytes_of_string "saltsalt") t m p l
         = Raise (UnicodeEncodeError start).
Proof.
  assert (bytes_of_string "saltsalt" <> []) as Hsalt
    by (vm_compute; discriminate).
  assert (~ Forall scalar_value [0x70%N; 0xDC80%N]) as Hpw.
  { intros Hall. apply (encode_utf8_scalar (E := unit)) in Hall.
    destruct Hall as [bs Hbs]. vm_compute in Hbs. discriminate. }
  split; [exact Hsalt |]. split; [exact Hpw |].
  exact (derive_key_unencodable_password [0x70%N; 0xDC80%N]
           (bytes_of_string "saltsalt") Hsalt Hpw).
Defined.

(** ** What [derive_key] returns and raises *)

Section Outcomes.

Context {E : Type}.
Variable hash_secret_raw : primitive E.

(** A key returned by [derive_key] is the key the primitive returned for the
    UTF-8 bytes of the password, the same salt and parameters and
    [Type.ID]: nothing else is ever returned, and the salt was not empty. *)
Theorem derive_key_Ok_iff password salt t m p l key :
  derive_key hash_secret_raw password salt t m p l = Ok key
  <-> salt <> []
      /\ exists secret,
           @encode_utf8 E password = Ok secret
           /\ hash_secret_raw secret salt t m p l Type_.ID = inr key.
Proof.
  split.
  - intros Hr. destruct salt as [|b salt]; [discriminate |].
    assert (b :: salt <> []) as Hne by discriminate.
    split; [exact Hne |].
    destruct (@encode_utf8 E password) as [secret|e] eqn:Henc.
    + rewrite (derive_key_encoded _ _ _ _ t m p l Hne Henc) in Hr.
      exists secret. split; [reflexivity |].
      destruct (hash_secret_raw secret (b :: salt) t m p l Type_.ID);
        simpl in Hr; congruence.
    + rewrite (derive_key_not_encoded _ _ _ _ t m p l Hne Henc) in Hr.
      discriminate.
  - intros [Hne [secret [Henc Hcall]]].
    rewrite (derive_key_encoded _ _ _ _ t m p l Hne Henc), Hcall.
    reflexivity.
Qed.

(** [derive_key] has no handler around the call of the primitive: an
    exception raised inside [hash_secret_raw] is the outcome of [derive_key],
    unchanged, exactly when the salt is not empty, the password was encoded
    and the call made for them raised it. *)
Theorem derive_key_passes_primitive_exception password salt t m p l e :
  derive_key hash_secret_raw password salt t m p l
  = Raise (PrimitiveError e)
  <-> salt <> []
      /\ exists secret,
           @encode_utf8 E password = Ok secret
           /\ hash_secret_raw secret salt t m p l Type_.ID = inl e.
Proof.
  split.
  - intros Hr. destruct salt as [|b salt]; [discriminate |].
    assert (b :: salt <> []) as Hne by discriminate.
    split; [exact Hne |].
    destruct (@encode_utf8 E password) as [secret|e0] eqn:Henc.
    + rewrite (derive_key_encoded _ _ _ _ t m p l Hne Henc) in Hr.
      exists secret. split; [reflexivity |].
      destruct (hash_secret_raw secret (b :: salt) t m p l Type_.ID);
        cbn [returned] in Hr; congruence.
    + rewrite (derive_key_not_encoded _ _ _ _ t m p l Hne Henc) in Hr.
      apply encode_from_Raise in Henc. destruct Henc as [k ->].
      discriminate.
  - intros [Hne [secret [Henc Hcall]]].
    rewrite (derive_key_encoded _ _ _ _ t m p l Hne Henc), Hcall.
    reflexivity.
Qed.

End Outcomes.

(** [derive_key] looks at the primitive only through its Argon2id variant:
    two primitives that agree on every call with [Type.ID] give the same
    [derive_key], however they differ on [Type.D] and [Type.I]. *)
Theorem derive_key_only_ID {E : Type} (prim1 prim2 : primitive E) :
  (forall secret salt t m p l,
      prim1 secret salt t m p l Type_.ID = prim2 secret salt t m p l Type_.ID)
  ->
  forall password salt t m p l,
    derive_key prim1 password salt t m p l
    = derive_key prim2 password salt t m p l.
Proof.
  intros Hagree password salt t m p l.
  unfold derive_key.
  destruct (falsy salt); [reflexivity |].
  destruct (@encode_utf8 E password) as [secret|e]; [|reflexivity].
  cbn [bind]. now rewrite Hagree.
Qed.

(** ** The two functions together *)

(** In [randomize_salt] the HMAC key is a 32-byte digest, shorter than a
    block, so [hmac.new] never hashes it again: on a non-empty seed the
    result is three SHA-256 computations, the key being the seed's digest
    followed by 32 zero bytes. *)
Theorem randomize_salt_three_hashes {E : Type} (seed : bytes) :
  seed <> [] ->
  @randomize_salt E seed
  = Ok (let k0 := SHA256.hash seed ++ repeat x00 32 in
        SHA256.hash
          (map (fun b => xor_byte b x5c) k0
             ++ SHA256.hash (map (fun b => xor_byte b x36) k0 ++ seed))).
Proof.
  intros Hne.
  rewrite (randomize_salt_nonempty seed Hne), hmac_new_digest.
  unfold HMAC_SHA256, hashlib.digest, hashlib.sha256. cbn [hashlib.fed].
  rewrite sha256_length. reflexivity.
Qed.

(** Expanding a seed and deriving with the result, as the example does.  The
    salt test of [derive_key] never fires on an expanded salt: the only
    [ValueError] of the composition is [randomize_salt]'s, on the empty seed,
    and on any other seed the primitive, if the password can be encoded, is
    called with a salt of exactly 32 bytes. *)
Theorem randomize_then_derive {E : Type} (hash_secret_raw : primitive E)
    seed password t m p l :
  let both :=
    bind (randomize_salt seed)
      (fun salt => derive_key hash_secret_raw password salt t m p l) in
  (seed = [] ->
   both = Raise (ValueError "User-provided salt must not be empty."))
  /\ (seed <> [] ->
      exists salt,
        @randomize_salt E seed = Ok salt
        /\ length salt = 32%nat
        /\ both
           = bind (encode_utf8 password)
               (fun secret =>
                  returned
                    (hash_secret_raw secret salt t m p l Type_.ID)))
  /\ both <> Raise (ValueError "Salt must be provided and cannot be empty.").
Proof.
  intros both. subst both.
  assert (forall salt : bytes,
             length salt = 32%nat ->
             derive_key hash_secret_raw password salt t m p l
             = bind (encode_utf8 password)
                 (fun secret =>
                    returned
                      (hash_secret_raw secret salt t m p l Type_.ID)))
    as Hderive.
  { intros salt Hlen. destruct salt as [|b salt]; [discriminate |].
    unfold derive_key. cbn [falsy].
    destruct (@encode_utf8 E password) as [secret|e]; cbn [bind];
      [apply bind_returned | reflexivity]. }
  destruct seed as [|b seed].
  - split; [reflexivity |]. split; [intros Hne; now elim Hne |].
    cbn. discriminate.
  - assert (b :: seed <> []) as Hne by discriminate.
    pose proof (randomize_salt_nonempty (E := E) (b :: seed) Hne) as Hsalt.
    pose proof (hmac_digest_length
                  (hmac.new (hashlib.digest (hashlib.sha256 (b :: seed)))
                     (b :: seed))) as Hlen.
    set (salt := hmac.digest
                   (hmac.new (hashlib.digest (hashlib.sha256 (b :: seed)))
                      (b :: seed))) in *.
    split; [discriminate |]. split.
    + intros _. exists salt. rewrite Hsalt. cbn [bind].
      split; [reflexivity |]. split; [exact Hlen |].
      now apply Hderive.
    + rewrite Hsalt. cbn [bind]. rewrite (Hderive salt Hlen).
      destruct (@encode_utf8 E password) as [secret|e] eqn:Henc; cbn [bind].
      * destruct (hash_secret_raw secret salt t m p l Type_.ID);
          discriminate.
      * apply encode_from_Raise in Henc. destruct Henc as [k ->].
        discriminate.
Qed.

(** ** The script *)

Lemma script_seq_call_Ok {E A B} (r : result E A) (a : A)
    (k : A -> Script.prog E B) out :
  r = Ok a -> Script.seq (Script.call r) k out = k a out.
Proof. intros ->. reflexivity. Qed.

Lemma script_seq_call_Raise {E A B} (r : result E A) e
    (k : A -> Script.prog E B) out :
  r = Raise e -> Script.seq (Script.call r) k out = (out, Raise e).
Proof. intros ->. reflexivity. Qed.

(** Running the module's example against any primitive.  The primitive is
    called once, with the bytes of ["your_password_here"], the expanded salt
    of [b"User-ID-2"], the parameters 5, 65536, 4, 32 and [Type.ID].  If it
    returns a key, exactly three lines are printed: the key, the seed and the
    expanded salt in hexadecimal.  If it raises, that exception ends the
    script and nothing at all has been printed.  No other outcome exists: the
    script itself never raises [ValueError] or [UnicodeEncodeError]. *)
Theorem script_outcome {E : Type} (hash_secret_raw : primitive E)
    (out : list string) :
  match
    hash_secret_raw (bytes_of_string "your_password_here")
      (map byte_of_Z
         [25; 251; 112; 244; 1; 234; 126; 150; 221; 168; 75; 110; 29; 69;
          110; 81; 146; 196; 69; 251; 179; 157; 169; 240; 2; 212; 59; 127;
          108; 179; 189; 230])
      5 65536 4 32 Type_.ID
  with
  | inr derived_key =>
      Script.main hash_secret_raw out
      = (out
           ++ [("Derived Key (hex): " ++ hex derived_key)%string;
               "User Salt (hex): 557365722d49442d32"%string;
               "Randomized Salt (hex): 19fb70f401ea7e96dda84b6e1d456e5192c445fbb39da9f002d43b7f6cb3bde6"%string],
         Ok tt)
  | inl e => Script.main hash_secret_raw out = (out, Raise (PrimitiveError e))
  end.
Proof.
  pose proof (usage_derived_key hash_secret_raw) as Hcall.
  unfold Usage.derived_key in Hcall.
  rewrite randomized_salt_value in Hcall. cbn [bind] in Hcall.
  unfold Script.main. cbv zeta.
  rewrite (script_seq_call_Ok _ _ _ out (randomized_salt_value (E := E))).
  destruct (hash_secret_raw _ _ 5 65536 4 32 Type_.ID) as [e|key];
    cbn [returned] in Hcall.
  - now rewrite (script_seq_call_Raise _ _ _ out Hcall).
  - rewrite (script_seq_call_Ok _ _ _ out Hcall).
    unfold Script.seq, Script.print.
    rewrite <- !app_assoc. cbn [app].
    repeat f_equal.
Qed.

(** ** Bytes and their values *)

Lemma byte_to_Z_range (b : byte) : 0 <= byte_to_Z b < 256.
Proof.
  unfold byte_to_Z. pose proof (Byte.to_N_bounded b). lia.
Qed.

Lemma byte_to_of_Z (z : Z) : 0 <= z < 256 -> byte_to_Z (byte_of_Z z) = z.
Proof.
  intros Hz. unfold byte_to_Z, byte_of_Z.
  rewrite Z.mod_small by exact Hz.
  destruct (Byte.of_N (Z.to_N z)) as [b|] eqn:Hb.
  - apply Byte.to_of_N in Hb. lia.
  - apply Byte.of_N_None_iff in Hb. lia.
Qed.

Lemma byte_of_to_Z (b : byte) : byte_of_Z (byte_to_Z b) = b.
Proof.
  unfold byte_of_Z, byte_to_Z.
  pose proof (Byte.to_N_bounded b) as Hb.
  rewrite Z.mod_small by lia.
  rewrite N2Z.id, Byte.of_to_N. reflexivity.
Qed.

Lemma byte_of_Z_inj (x y : Z) :
  0 <= x < 256 -> 0 <= y < 256 -> byte_of_Z x = byte_of_Z y -> x = y.
Proof.
  intros Hx Hy Heq.
  rewrite <- (byte_to_of_Z x Hx), <- (byte_to_of_Z y Hy). now rewrite Heq.
Qed.

(** A property checked on 0, 1, ..., n-1 holds below n. *)
Lemma checked_below (P : Z -> bool) (n : nat) :
  forallb P (map Z.of_nat (seq 0 n)) = true ->
  forall x, 0 <= x < Z.of_nat n -> P x = true.
Proof.
  intros Hall x Hx. rewrite forallb_forall in Hall. apply Hall.
  apply in_map_iff. exists (Z.to_nat x). split; [lia |].
  apply in_seq. lia.
Qed.

(** The marker bits of a UTF-8 byte and its payload do not overlap, so
    [Z.lor] adds them. *)
Lemma lor_marker (marker width x : Z) :
  (marker, width) = (0x80, 64) \/ (marker, width) = (0xC0, 32)
  \/ (marker, width) = (0xE0, 16) \/ (marker, width) = (0xF0, 8) ->
  0 <= x < width ->
  Z.lor marker x = marker + x.
Proof.
  intros Hcase Hx.
  apply Z.eqb_eq.
  destruct Hcase as [[= -> ->] | [[= -> ->] | [[= -> ->] | [= -> ->]]]].
  - apply (checked_below (fun x => Z.lor 0x80 x =? 0x80 + x) 64);
      [reflexivity | lia].
  - apply (checked_below (fun x => Z.lor 0xC0 x =? 0xC0 + x) 32);
      [reflexivity | lia].
  - apply (checked_below (fun x => Z.lor 0xE0 x =? 0xE0 + x) 16);
      [reflexivity | lia].
  - apply (checked_below (fun x => Z.lor 0xF0 x =? 0xF0 + x) 8);
      [reflexivity | lia].
Qed.

Lemma land_3F (x : Z) : Z.land x 0x3F = x mod 64.
Proof. change 0x3F with (Z.ones 6). now rewrite Z.land_ones by lia. Qed.

Lemma shiftr_div (x n : Z) : 0 <= n -> Z.shiftr x n = x / 2 ^ n.
Proof. intros Hn. now apply Z.shiftr_div_pow2. Qed.

(** ** UTF-8, arithmetically *)

Lemma Some_inj {A} (x y : A) : Some x = Some y -> x = y.
Proof. congruence. Qed.

(** The bytes of a code point by its range: the payload is cut into groups
    of six bits, the first byte carries the length marker. *)
Lemma encode_char_arith (c : N) (bs : bytes) :
  encode_char c = Some bs ->
  (0 <= Z.of_N c < 0x80 /\ bs = [byte_of_Z (Z.of_N c)])
  \/ (0x80 <= Z.of_N c < 0x800
      /\ bs = [byte_of_Z (0xC0 + Z.of_N c / 64);
               byte_of_Z (0x80 + Z.of_N c mod 64)])
  \/ (0x800 <= Z.of_N c < 0x10000
      /\ bs = [byte_of_Z (0xE0 + Z.of_N c / 4096);
               byte_of_Z (0x80 + (Z.of_N c / 64) mod 64);
               byte_of_Z (0x80 + Z.of_N c mod 64)])
  \/ (0x10000 <= Z.of_N c <= 0x10FFFF
      /\ bs = [byte_of_Z (0xF0 + Z.of_N c / 262144);
               byte_of_Z (0x80 + (Z.of_N c / 4096) mod 64);
               byte_of_Z (0x80 + (Z.of_N c / 64) mod 64);
               byte_of_Z (0x80 + Z.of_N c mod 64)]).
Proof.
  unfold encode_char.
  set (ch := Z.of_N c). assert (0 <= ch) as Hpos by (subst ch; lia).
  destruct (Z.ltb_spec ch 0x80) as [H1|H1].
  { intros Hbs; apply Some_inj in Hbs; subst bs. left. split; [lia | reflexivity]. }
  destruct (Z.ltb_spec ch 0x800) as [H2|H2].
  { intros Hbs; apply Some_inj in Hbs; subst bs. right; left. split; [lia |].
    rewrite land_3F, shiftr_div by lia. change (2 ^ 6) with 64.
    rewrite (lor_marker 0xC0 32), (lor_marker 0x80 64);
      try reflexivity; try tauto; try (Z.div_mod_to_equations; lia). }
  destruct ((0xD800 <=? ch) && (ch <=? 0xDFFF)); [discriminate |].
  destruct (Z.ltb_spec ch 0x10000) as [H3|H3].
  { intros Hbs; apply Some_inj in Hbs; subst bs. right; right; left. split; [lia |].
    rewrite !land_3F, !shiftr_div by lia.
    change (2 ^ 6) with 64. change (2 ^ 12) with 4096.
    rewrite (lor_marker 0xE0 16), !(lor_marker 0x80 64);
      try reflexivity; try tauto; try (Z.div_mod_to_equations; lia). }
  destruct (Z.leb_spec ch 0x10FFFF) as [H4|H4]; [|discriminate].
  intros Hbs; apply Some_inj in Hbs; subst bs. right; right; right. split; [lia |].
  rewrite !land_3F, !shiftr_div by lia.
  change (2 ^ 6) with 64. change (2 ^ 12) with 4096.
  change (2 ^ 18) with 262144.
  rewrite (lor_marker 0xF0 8), !(lor_marker 0x80 64);
    try reflexivity; try tauto; try (Z.div_mod_to_equations; lia).
Qed.

Lemma Ok_inj {E A} (x y : A) : @Ok E A x = Ok y -> x = y.
Proof. congruence. Qed.

Lemma cons_inj {A} (a b : A) (l l' : list A) :
  a :: l = b :: l' -> a = b /\ l = l'.
Proof. intros [= -> ->]. auto. Qed.

Ltac byte_values H :=
  repeat match type of H with
         | _ :: _ = _ :: _ =>
             let Hb := fresh "Hb" in
             apply cons_inj in H; destruct H as [Hb H];
             apply byte_of_Z_inj in Hb;
             [| Z.div_mod_to_equations; lia | Z.div_mod_to_equations; lia]
         end.

(** No encoding is the beginning of another: the first byte tells the
    length, and the bytes give back the code point. *)
Lemma encode_char_prefix (c1 c2 : N) (b1 b2 r1 r2 : bytes) :
  encode_char c1 = Some b1 ->
  encode_char c2 = Some b2 ->
  b1 ++ r1 = b2 ++ r2 ->
  c1 = c2.
Proof.
  intros H1 H2 Heq.
  apply encode_char_arith in H1, H2.
  apply N2Z.inj.
  destruct H1 as [[R1 ->] | [[R1 ->] | [[R1 ->] | [R1 ->]]]];
    destruct H2 as [[R2 ->] | [[R2 ->] | [[R2 ->] | [R2 ->]]]];
    cbn [app] in Heq; byte_values Heq;
    Z.div_mod_to_equations; lia.
Qed.

Section Injective.

Context {E : Type}.

Lemma encode_from_inj (s1 : str) :
  forall s2 start1 start2 bs,
    @encode_from E start1 s1 = Ok bs ->
    @encode_from E start2 s2 = Ok bs ->
    s1 = s2.
Proof.
  induction s1 as [|c1 s1 IH]; intros s2 start1 start2 bs H1 H2.
  - cbn in H1. apply Ok_inj in H1. subst bs.
    destruct s2 as [|c2 s2]; [reflexivity | exfalso].
    cbn [encode_from] in H2.
    destruct (encode_char c2) as [b2|] eqn:Hc2; [|discriminate].
    destruct (encode_from (S start2) s2) as [t2|] ; [|discriminate].
    cbn [bind] in H2. apply Ok_inj in H2.
    apply encode_char_arith in Hc2.
    destruct Hc2 as [[_ ->] | [[_ ->] | [[_ ->] | [_ ->]]]]; discriminate.
  - cbn [encode_from] in H1.
    destruct (encode_char c1) as [b1|] eqn:Hc1; [|discriminate].
    destruct (encode_from (S start1) s1) as [t1|] eqn:Ht1; [|discriminate].
    cbn [bind] in H1. apply Ok_inj in H1. subst bs.
    destruct s2 as [|c2 s2].
    + cbn in H2. apply Ok_inj in H2.
      apply encode_char_arith in Hc1.
      destruct Hc1 as [[_ ->] | [[_ ->] | [[_ ->] | [_ ->]]]]; discriminate.
    + cbn [encode_from] in H2.
      destruct (encode_char c2) as [b2|] eqn:Hc2; [|discriminate].
      destruct (encode_from (S start2) s2) as [t2|] eqn:Ht2; [|discriminate].
      cbn [bind] in H2. apply Ok_inj in H2.
      assert (c2 = c1) as -> by (eapply encode_char_prefix; eassumption).
      assert (b2 = b1) as -> by congruence.
      apply app_inv_head in H2. subst t2.
      f_equal. eapply IH; eassumption.
Qed.

(** Two passwords with the same UTF-8 bytes are the same password:
    [derive_key] hands different passwords to the primitive as different
    secrets. *)
Theorem encode_utf8_injective (password1 password2 : str) (secret : bytes) :
  @encode_utf8 E password1 = Ok secret ->
  @encode_utf8 E password2 = Ok secret ->
  password1 = password2.
Proof. unfold encode_utf8. apply encode_from_inj. Qed.

End Injective.

Section EncoderFacts.

Context {E : Type}.

Lemma encode_from_ascii (s : str) :
  Forall (fun c => (c < 128)%N) s ->
  forall start,
    @encode_from E start s = Ok (map (fun c => byte_of_Z (Z.of_N c)) s).
Proof.
  induction 1 as [|c s Hc _ IH]; intros start; cbn [encode_from map].
  - reflexivity.
  - unfold encode_char.
    destruct (Z.ltb_spec (Z.of_N c) 0x80) as [_|Hge]; [|lia].
    rewrite IH. reflexivity.
Qed.

(** A password of ASCII characters is passed on as it is: one byte per
    character, the byte being the character's code. *)
Theorem encode_utf8_ascii (password : str) :
  Forall (fun c => (c < 128)%N) password ->
  @encode_utf8 E password
  = Ok (map (fun c => byte_of_Z (Z.of_N c)) password).
Proof. intros Hascii. now apply encode_from_ascii. Qed.

Lemma encode_char_length (c : N) (bs : bytes) :
  encode_char c = Some bs -> (1 <= length bs <= 4)%nat.
Proof.
  intros Hc. apply encode_char_arith in Hc.
  destruct Hc as [[_ ->] | [[_ ->] | [[_ ->] | [_ ->]]]]; cbn [length]; lia.
Qed.

Lemma encode_from_length (s : str) :
  forall start bs,
    @encode_from E start s = Ok bs ->
    (length s <= length bs <= 4 * length s)%nat.
Proof.
  induction s as [|c s IH]; intros start bs; cbn [encode_from].
  - intros Hbs. apply Ok_inj in Hbs. subst bs. cbn. lia.
  - destruct (encode_char c) as [cs|] eqn:Hc; [|discriminate].
    destruct (encode_from (S start) s) as [tail|] eqn:Hs; [|discriminate].
    cbn [bind]. intros Hbs. apply Ok_inj in Hbs. subst bs.
    apply encode_char_length in Hc. apply IH in Hs.
    rewrite length_app. cbn [length]. lia.
Qed.

(** The secret has at least one and at most four bytes per character of the
    password. *)
Theorem encode_utf8_length (password : str) (secret : bytes) :
  @encode_utf8 E password = Ok secret ->
  (length password <= length secret <= 4 * length password)%nat.
Proof. unfold encode_utf8. apply encode_from_length. Qed.

Lemma encode_char_None (c : N) : encode_char c = None <-> ~ scalar_value c.
Proof.
  rewrite encode_char_scalar. destruct (encode_char c) as [bs|]; split.
  - discriminate.
  - intros Hno. elim Hno. eauto.
  - intros _ [bs Hbs]. discriminate.
  - reflexivity.
Qed.

Lemma encode_from_error_position (s : str) :
  forall start k,
    @encode_from E start s = Raise (UnicodeEncodeError k)
    <-> exists i,
          k = (start + i)%nat
          /\ (i < length s)%nat
          /\ ~ scalar_value (nth i s 0%N)
          /\ Forall scalar_value (firstn i s).
Proof.
  induction s as [|c s IH]; intros start k; cbn [encode_from].
  - split; [discriminate |]. intros [i [_ [Hi _]]]. cbn in Hi. lia.
  - destruct (encode_char c) as [cs|] eqn:Hc.
    + assert (scalar_value c) as Hsc by (apply encode_char_scalar; eauto).
      assert (bind (@encode_from E (S start) s)
                (fun tail => @Ok E bytes (cs ++ tail))
              = Raise (UnicodeEncodeError k)
              <-> @encode_from E (S start) s = Raise (UnicodeEncodeError k))
        as ->.
      { destruct (@encode_from E (S start) s); cbn [bind]; split;
          congruence. }
      rewrite IH. split.
      * intros [i [-> [Hi [Hbad Hgood]]]]. exists (S i). cbn.
        repeat split; try lia; try assumption. now constructor.
      * intros [[|i] [-> [Hi [Hbad Hgood]]]].
        { cbn in Hbad. contradiction. }
        exists i. cbn in Hi, Hbad, Hgood.
        repeat split; try lia; try assumption. now inversion Hgood.
    + apply encode_char_None in Hc. split.
      * intros Hk. assert (k = start) as -> by congruence.
        exists 0%nat. cbn. repeat split; try lia; try assumption.
        constructor.
      * intros [[|i] [-> [Hi [Hbad Hgood]]]].
        { now rewrite Nat.add_0_r. }
        cbn in Hgood. inversion Hgood. contradiction.
Qed.

(** The [UnicodeEncodeError] names the first character of the password that
    cannot be encoded: the index it carries is that of a code point that is
    no scalar value, and all characters before it are scalar values. *)
Theorem encode_utf8_error_position (password : str) (k : nat) :
  @encode_utf8 E password = Raise (UnicodeEncodeError k)
  <-> (k < length password)%nat
      /\ ~ scalar_value (nth k password 0%N)
      /\ Forall scalar_value (firstn k password).
Proof.
  unfold encode_utf8. rewrite encode_from_error_position. split.
  - intros [i [-> H]]. exact H.
  - intros H. exists k. split; [reflexivity | exact H].
Qed.

End EncoderFacts.

(** ** [bytes.hex()] *)

Lemma hex_digit_char (x : Z) :
  0 <= x < 16 -> exists c, hex_digit x = String c EmptyString.
Proof.
  intros Hx.
  pose proof (checked_below
                (fun x => match hex_digit x with
                          | String _ EmptyString => true
                          | _ => false
                          end) 16 eq_refl x Hx) as Hc.
  cbv beta in Hc.
  destruct (hex_digit x) as [|c [|c' rest]]; try discriminate. eauto.
Qed.

Lemma hex_digit_inj (x y : Z) :
  0 <= x < 16 -> 0 <= y < 16 -> hex_digit x = hex_digit y -> x = y.
Proof.
  intros Hx Hy Heq.
  pose proof (checked_below
                (fun x =>
                   forallb
                     (fun y =>
                        implb (String.eqb (hex_digit x) (hex_digit y))
                              (x =? y))
                     (map Z.of_nat (seq 0 16))) 16 eq_refl x Hx) as Hall.
  cbv beta in Hall.
  pose proof (checked_below _ 16 Hall y Hy) as Hxy.
  cbv beta in Hxy.
  rewrite Heq, String.eqb_refl in Hxy. now apply Z.eqb_eq.
Qed.

Lemma string_app_assoc (a b c : string) :
  ((a ++ b) ++ c = a ++ (b ++ c))%string.
Proof. induction a as [|x a IH]; cbn; [reflexivity | now rewrite IH]. Qed.

Lemma string_app_nil_r (a : string) : (a ++ EmptyString = a)%string.
Proof. induction a as [|x a IH]; cbn; [reflexivity | now rewrite IH]. Qed.

Lemma hex_cons (b : byte) (bs : bytes) :
  hex (b :: bs)
  = (hex_digit (byte_to_Z b / 16) ++ hex_digit (byte_to_Z b mod 16)
       ++ hex bs)%string.
Proof.
  unfold hex. cbn [map String.concat].
  destruct (map _ bs) as [|x xs] eqn:Hmap.
  - cbn [String.concat]. now rewrite string_app_nil_r.
  - cbn [String.append]. now rewrite string_app_assoc.
Qed.

Lemma hex_cons_chars (b : byte) (bs : bytes) :
  exists c1 c2,
    hex (b :: bs) = String c1 (String c2 (hex bs))
    /\ hex_digit (byte_to_Z b / 16) = String c1 EmptyString
    /\ hex_digit (byte_to_Z b mod 16) = String c2 EmptyString.
Proof.
  pose proof (byte_to_Z_range b) as Hb.
  destruct (hex_digit_char (byte_to_Z b / 16)) as [c1 H1];
    [Z.div_mod_to_equations; lia |].
  destruct (hex_digit_char (byte_to_Z b mod 16)) as [c2 H2];
    [Z.div_mod_to_equations; lia |].
  exists c1, c2. rewrite hex_cons, H1, H2. auto.
Qed.

(** The hexadecimal form printed by the script has two characters for each
    byte, and two different byte strings never print alike. *)
Theorem hex_faithful (xs ys : bytes) :
  String.length (hex xs) = (2 * length xs)%nat
  /\ (hex xs = hex ys -> xs = ys).
Proof.
  split.
  - induction xs as [|b xs IH]; [reflexivity |].
    destruct (hex_cons_chars b xs) as [c1 [c2 [-> _]]].
    cbn [String.length length]. rewrite IH. lia.
  - revert ys. induction xs as [|b xs IH]; intros [|b' ys] Heq.
    + reflexivity.
    + destruct (hex_cons_chars b' ys) as [c1 [c2 [Hy _]]].
      rewrite Hy in Heq. discriminate.
    + destruct (hex_cons_chars b xs) as [c1 [c2 [Hx _]]].
      rewrite Hx in Heq. discriminate.
    + destruct (hex_cons_chars b xs) as [c1 [c2 [Hx [Hx1 Hx2]]]].
      destruct (hex_cons_chars b' ys) as [d1 [d2 [Hy [Hy1 Hy2]]]].
      rewrite Hx, Hy in Heq.
      assert (c1 = d1 /\ c2 = d2 /\ hex xs = hex ys) as [-> [-> Hrest]]
        by (repeat split; congruence).
      pose proof (byte_to_Z_range b) as Hb.
      pose proof (byte_to_Z_range b') as Hb'.
      assert (byte_to_Z b / 16 = byte_to_Z b' / 16) as Hhi.
      { apply hex_digit_inj; try (Z.div_mod_to_equations; lia).
        congruence. }
      assert (byte_to_Z b mod 16 = byte_to_Z b' mod 16) as Hlo.
      { apply hex_digit_inj; try (Z.div_mod_to_equations; lia).
        congruence. }
      assert (byte_to_Z b = byte_to_Z b') as Hv
        by (Z.div_mod_to_equations; lia).
      f_equal.
      * rewrite <- (byte_of_to_Z b), <- (byte_of_to_Z b'). now rewrite Hv.
      * now apply IH.
Qed.

(** ** Instances of the facts above *)

Lemma model_accepts_usage :
  model_hash_secret_raw (bytes_of_string "your_password_here")
    (spec_expand SHA256.hash HMAC_SHA256 Usage.user_salt)
    5 65536 4 32 Type_.ID
  = inr (model_output (bytes_of_string "your_password_here")
           (spec_expand SHA256.hash HMAC_SHA256 Usage.user_salt)
           5 65536 4 32 Type_.ID).
Proof. reflexivity. Qed.

Lemma usage_password_encoded :
  @encode_utf8 primitive_error Usage.password
  = Ok (bytes_of_string "your_password_here").
Proof. vm_compute. reflexivity. Qed.

Lemma derive_key_Ok_iff_witness :
  derive_key model_hash_secret_raw Usage.password
    (spec_expand SHA256.hash HMAC_SHA256 Usage.user_salt) 5 65536 4 32
  = Ok (model_output (bytes_of_string "your_password_here")
          (spec_expand SHA256.hash HMAC_SHA256 Usage.user_salt)
          5 65536 4 32 Type_.ID).
Proof.
  apply (proj2 (derive_key_Ok_iff model_hash_secret_raw Usage.password
                  (spec_expand SHA256.hash HMAC_SHA256 Usage.user_salt)
                  5 65536 4 32 _)).
  split; [apply expanded_salt_nonempty |].
  exists (bytes_of_string "your_password_here").
  split; [exact usage_password_encoded | exact model_accepts_usage].
Defined.

(** A primitive refusing [time_cost = 0]: the exception that leaves
    [derive_key] is the primitive's. *)
Lemma derive_key_passes_primitive_exception_witness :
  derive_key model_hash_secret_raw Usage.password
    (spec_expand SHA256.hash HMAC_SHA256 Usage.user_salt) 0 65536 4 32
  = Raise (PrimitiveError InvalidParameterError).
Proof.
  apply (proj2 (derive_key_passes_primitive_exception model_hash_secret_raw
                  Usage.password
                  (spec_expand SHA256.hash HMAC_SHA256 Usage.user_salt)
                  0 65536 4 32 InvalidParameterError)).
  split; [apply expanded_salt_nonempty |].
  exists (bytes_of_string "your_password_here").
  split; [exact usage_password_encoded | reflexivity].
Defined.

(** The stand-in primitive against one that fails on every variant but
    Argon2id: they differ on [Type.D], and [derive_key] does not see it. *)
Lemma derive_key_only_ID_witness :
  model_hash_secret_raw [] (bytes_of_string "saltsalt") 5 65536 4 32 Type_.D
  <> inl ResourceExhaustedError
  /\ derive_key model_hash_secret_raw Usage.password
       (bytes_of_string "saltsalt") 5 65536 4 32
     = derive_key
         (fun secret salt t m p l ty =>
            match ty with
            | Type_.ID => model_hash_secret_raw secret salt t m p l ty
            | _ => inl ResourceExhaustedError
            end)
         Usage.password (bytes_of_string "saltsalt") 5 65536 4 32.
Proof.
  split; [discriminate |].
  apply (derive_key_only_ID model_hash_secret_raw
           (fun secret salt t m p l ty =>
              match ty with
              | Type_.ID => model_hash_secret_raw secret salt t m p l ty
              | _ => inl ResourceExhaustedError
              end)).
  reflexivity.
Defined.

Lemma randomize_salt_three_hashes_witness :
  Usage.user_salt <> []
  /\ @randomize_salt primitive_error Usage.user_salt
     = Ok (let k0 := SHA256.hash Usage.user_salt ++ repeat x00 32 in
           SHA256.hash
             (map (fun b => xor_byte b x5c) k0
                ++ SHA256.hash
                     (map (fun b => xor_byte b x36) k0 ++ Usage.user_salt))).
Proof.
  split; [exact usage_user_salt_nonempty |].
  exact (randomize_salt_three_hashes Usage.user_salt
           usage_user_salt_nonempty).
Defined.

Lemma randomize_then_derive_witness :
  exists salt,
    @randomize_salt primitive_error Usage.user_salt = Ok salt
    /\ length salt = 32%nat
    /\ bind (randomize_salt Usage.user_salt)
         (fun salt =>
            derive_key model_hash_secret_raw Usage.password salt
              5 65536 4 32)
       = bind (encode_utf8 Usage.password)
           (fun secret =>
              returned
                (model_hash_secret_raw secret salt 5 65536 4 32 Type_.ID)).
Proof.
  exact (proj1 (proj2 (randomize_then_derive model_hash_secret_raw
                         Usage.user_salt Usage.password 5 65536 4 32))
           usage_user_salt_nonempty).
Defined.

(** U+00E9 is the two bytes C3 A9 in UTF-8, and a string with these bytes
    is that one character. *)
Lemma encode_utf8_injective_witness :
  @encode_utf8 primitive_error [0xE9%N] = Ok [xc3; xa9]
  /\ [0xE9%N] = [0xE9%N].
Proof.
  assert (@encode_utf8 primitive_error [0xE9%N] = Ok [xc3; xa9]) as Henc
    by (vm_compute; reflexivity).
  split; [exact Henc |].
  exact (encode_utf8_injective [0xE9%N] [0xE9%N] [xc3; xa9] Henc Henc).
Defined.

Lemma encode_utf8_ascii_witness :
  Forall (fun c => (c < 128)%N) Usage.password
  /\ @encode_utf8 primitive_error Usage.password
     = Ok (map (fun c => byte_of_Z (Z.of_N c)) Usage.password).
Proof.
  assert (Forall (fun c => (c < 128)%N) Usage.password) as Hascii
    by (repeat constructor).
  split; [exact Hascii |].
  exact (encode_utf8_ascii Usage.password Hascii).
Defined.

(** The letter a and U+20AC: two characters, four bytes. *)
Lemma encode_utf8_length_witness :
  @encode_utf8 primitive_error [0x61%N; 0x20AC%N] = Ok [x61; xe2; x82; xac]
  /\ (length [0x61%N; 0x20AC%N] <= length [x61; xe2; x82; xac]
      <= 4 * length [0x61%N; 0x20AC%N])%nat.
Proof.
  assert (@encode_utf8 primitive_error [0x61%N; 0x20AC%N]
          = Ok [x61; xe2; x82; xac]) as Henc by (vm_compute; reflexivity).
  split; [exact Henc |].
  exact (encode_utf8_length [0x61%N; 0x20AC%N] [x61; xe2; x82; xac] Henc).
Defined.

(** ["ab\udfffc"]: the error is at index 2. *)
Lemma encode_utf8_error_position_witness :
  @encode_utf8 primitive_error [0x61%N; 0x62%N; 0xDFFF%N; 0x63%N]
  = Raise (UnicodeEncodeError 2).
Proof.
  apply (proj2 (encode_utf8_error_position
                  [0x61%N; 0x62%N; 0xDFFF%N; 0x63%N] 2)).
  split; [cbn; lia |]. split.
  - cbn. unfold scalar_value. lia.
  - cbn. repeat constructor; unfold scalar_value; lia.
Defined.

Lemma hex_faithful_witness :
  hex Usage.user_salt = hex (bytes_of_string "User-ID-2")
  /\ Usage.user_salt = bytes_of_string "User-ID-2"
  /\ String.length (hex Usage.user_salt) = 18%nat.
Proof.
  split; [reflexivity |]. split.
  - exact (proj2 (hex_faithful Usage.user_salt
                    (bytes_of_string "User-ID-2")) eq_refl).
  - exact (proj1 (hex_faithful Usage.user_salt Usage.user_salt)).
Defined.
